(** * Pareto-front identification: [identify_pareto]

    A shallow embedding of the notebook function [identify_pareto]
    (pairwise dominance filter, maximise-all-objectives) together with
    the properties of its specification.

    Scores are modelled as integers ([Z]); the worked example of the
    notebook is an integer array.  A score table is the list of the rows
    of a 2-D array, so all rows of a well-formed table have one length.
    Non-finite floating-point values are out of scope. *)

From stdpp Require Import base numbers list sorting.

Module Pareto.

(** ** Outcomes of a call *)

(** [IndexError] is what indexing out of range raises.  [InvalidInput] is
    the error category named by the specification; the function has no
    statement that raises it. *)
Inductive exn : Type :=
  | IndexError
  | InvalidInput.

Inductive outcome (A : Type) : Type :=
  | Returned (a : A)
  | Raised (e : exn).
Arguments Returned {A} a.
Arguments Raised {A} e.

(** Sequencing: an exception skips the rest of the computation. *)
#[export] Instance outcome_bind : MBind outcome := fun A B k o =>
  match o with
  | Returned a => k a
  | Raised e => Raised e
  end.

(** ** Array primitives used by the function *)

(** [scores.shape[0]] *)
Definition shape0 (scores : list (list Z)) : nat := length scores.

(** [np.arange(n)] and [range(n)] *)
Definition arange (n : nat) : list nat := seq 0 n.
Definition range (n : nat) : list nat := seq 0 n.

(** [np.ones(n, dtype=bool)] *)
Definition ones (n : nat) : list bool := replicate n true.

(** [a[i]]: raises when [i] is out of range. *)
Definition getitem {A : Type} (a : list A) (i : nat) : outcome A :=
  match a !! i with
  | Some x => Returned x
  | None => Raised IndexError
  end.

(** [a[i] = v]: raises when [i] is out of range. *)
Definition setitem {A : Type} (a : list A) (i : nat) (v : A) : outcome (list A) :=
  if i <? length a then Returned (<[i:=v]> a) else Raised IndexError.

(** Element-wise comparisons of two rows, [a >= b] and [a > b].  The rows
    of a 2-D array have equal length, so every column is paired. *)
Definition ge_rows (a b : list Z) : list bool := zip_with Z.geb a b.
Definition gt_rows (a b : list Z) : list bool := zip_with Z.gtb a b.

(** The builtins [all] and [any] on a sequence of truth values. *)
Definition all (l : list bool) : bool := forallb id l.
Definition any (l : list bool) : bool := existsb id l.

(** [ids[mask]]: selection by a boolean mask of the same length. *)
Fixpoint compress (mask : list bool) (ids : list nat) : list nat :=
  match mask, ids with
  | b :: mask', x :: ids' =>
      if b then x :: compress mask' ids' else compress mask' ids'
  | _, _ => []
  end.

Definition mask_index (ids : list nat) (mask : list bool) : outcome (list nat) :=
  if length mask =? length ids then Returned (compress mask ids)
  else Raised IndexError.

(** ** The function *)

(** The test of the inner loop:
    [all(scores[j] >= scores[i]) and any(scores[j] > scores[i])]. *)
Definition dominates (sj si : list Z) : bool :=
  all (ge_rows sj si) && any (gt_rows sj si).

(** The inner loop over [j], with its [break]. *)
Fixpoint inner_loop (scores : list (list Z)) (i : nat) (js : list nat)
    (pareto_front : list bool) : outcome (list bool) :=
  match js with
  | [] => Returned pareto_front
  | j :: js' =>
      sj ← getitem scores j;
      si ← getitem scores i;
      if dominates sj si
      then setitem pareto_front i false
      else inner_loop scores i js' pareto_front
  end.

(** The outer loop over [i]. *)
Fixpoint outer_loop (scores : list (list Z)) (population_size : nat)
    (idxs : list nat) (pareto_front : list bool) : outcome (list bool) :=
  match idxs with
  | [] => Returned pareto_front
  | i :: idxs' =>
      pareto_front' ← inner_loop scores i (range population_size) pareto_front;
      outer_loop scores population_size idxs' pareto_front'
  end.

Definition identify_pareto (scores : list (list Z)) : outcome (list nat) :=
  let population_size := shape0 scores in
  let population_ids := arange population_size in
  let pareto_front := ones population_size in
  pareto_front' ← outer_loop scores population_size
                    (range population_size) pareto_front;
  mask_index population_ids pareto_front'.

(** The dummy data of the notebook. *)
Definition scores : list (list Z) :=
  [[97; 23]; [55; 77]; [34; 76]; [80; 60]; [99; 4]; [81; 5]; [5; 81];
   [30; 79]; [15; 80]; [70; 65]; [90; 40]; [40; 30]; [30; 40]; [20; 60];
   [60; 50]; [20; 20]; [30; 1]; [60; 40]; [70; 25]; [44; 62]; [55; 55];
   [55; 10]; [15; 45]; [83; 22]; [76; 46]; [56; 32]; [45; 55]; [10; 70];
   [10; 30]; [79; 50]]%Z.

(** ** Vocabulary of the specification *)

(** Dominance in words: at least as good in every objective and strictly
    better in at least one. *)
Definition Dominates (a b : list Z) : Prop :=
  (forall k x y, a !! k = Some x -> b !! k = Some y -> (y <= x)%Z) /\
  (exists k x y, a !! k = Some x /\ b !! k = Some y /\ (y < x)%Z).

(** Candidate [j] dominates candidate [i] of table [t]. *)
Definition dominates_at (t : list (list Z)) (j i : nat) : bool :=
  match t !! j, t !! i with
  | Some sj, Some si => dominates sj si
  | _, _ => false
  end.

(** Some candidate of the table dominates candidate [i]. *)
Definition dominated (t : list (list Z)) (i : nat) : bool :=
  existsb (fun j => dominates_at t j i) (seq 0 (length t)).

(** The candidates that no candidate dominates, in ascending order. *)
Definition non_dominated (t : list (list Z)) : list nat :=
  filter (fun i => dominated t i = false) (seq 0 (length t)).

(** One pass of the outer loop, seen as an update of the flags. *)
Definition mark (t : list (list Z)) (flags : list bool) (i : nat) : list bool :=
  if dominated t i then <[i:=false]> flags else flags.

(** [scores[i, k]]: the score of candidate [i] in objective [k]. *)
Definition score (t : list (list Z)) (i k : nat) : option Z :=
  t !! i ≫= fun r => r !! k.

(** [scores[p]]: the rows of the table in the order given by the index
    list [p] (used with [p] a permutation of the row indices). *)
Definition take_rows (t : list (list Z)) (p : list nat) : list (list Z) :=
  (fun i => default [] (t !! i)) <$> p.

(** Reference definition, after the words of the specification: every
    ordered pair of distinct candidates is examined and every dominance
    found is recorded, as the pair (dominated, dominator); the front is
    made of the candidates that were never recorded as dominated. *)
Definition dominance_record (t : list (list Z)) : list (nat * nat) :=
  i ← seq 0 (length t);
  j ← seq 0 (length t);
  if bool_decide (i <> j) && dominates_at t j i then [(i, j)] else [].

Definition identify_pareto_exhaustive (t : list (list Z)) : list nat :=
  filter (fun i => i ∉ (fst <$> dominance_record t)) (seq 0 (length t)).

(** Lexicographic comparison of rows, a linearisation of dominance used
    to exhibit a candidate that nothing dominates. *)
Fixpoint lex_gtb (a b : list Z) : bool :=
  match a, b with
  | x :: a', y :: b' => (y <? x)%Z || ((x =? y)%Z && lex_gtb a' b')
  | _, _ => false
  end.

(** ** The cells that use the function *)

(** [scores[idx]] for an index array [idx]: the rows at these indices;
    raises when an index is out of range. *)
Fixpoint getitems (t : list (list Z)) (idx : list nat) : outcome (list (list Z)) :=
  match idx with
  | [] => Returned []
  | i :: idx' =>
      r ← getitem t i;
      rs ← getitems t idx';
      Returned (r :: rs)
  end.

(** [pareto = identify_pareto(scores); pareto_front = scores[pareto]] *)
Definition pareto_front_rows (t : list (list Z)) : outcome (list (list Z)) :=
  pareto ← identify_pareto t;
  getitems t pareto.

(** The entry of a row in column [k], as in [pareto_front[:, k]]. *)
Definition col (k : nat) (r : list Z) : Z := default 0%Z (r !! k).

(** A table of [m] columns. *)
Definition rectangular (m : nat) (t : list (list Z)) : Prop :=
  Forall (fun r => length r = m) t.

(** Every score of column [k] replaced by its image under [f k]. *)
Definition rescale (f : nat -> Z -> Z) (t : list (list Z)) : list (list Z) :=
  imap f <$> t.

(** [scores[:, s]]: the columns of the table in the order given by [s]. *)
Definition take_cols (t : list (list Z)) (s : list nat) : list (list Z) :=
  (fun r => (fun k => col k r) <$> s) <$> t.

(** ** Basic facts about the primitives *)

Lemma all_ge_rows (a b : list Z) :
  all (ge_rows a b) = true <->
  forall k x y, a !! k = Some x -> b !! k = Some y -> (y <= x)%Z.
Proof.
  revert b; induction a as [|x a IH]; intros [|y b]; simpl;
    try (split; [intros _ k u v Hu Hv; by destruct k | done]).
  unfold all, ge_rows in *; simpl. rewrite andb_true_iff, IH. unfold id.
  rewrite Z.geb_le. split.
  - intros [Hxy Hall] [|k] u v Hu Hv; simplify_eq/=; eauto.
  - intros H; split; [apply (H 0); done|].
    intros k u v Hu Hv. apply (H (S k)); done.
Qed.

Lemma any_gt_rows (a b : list Z) :
  any (gt_rows a b) = true <->
  exists k x y, a !! k = Some x /\ b !! k = Some y /\ (y < x)%Z.
Proof.
  revert b; induction a as [|x a IH]; intros [|y b]; simpl;
    try (split; [done | intros (k & u & v & Hu & Hv & _); by destruct k]).
  unfold any, gt_rows in *; simpl. rewrite orb_true_iff, IH. unfold id.
  rewrite Z.gtb_lt. split.
  - intros [Hxy | (k & u & v & Hu & Hv & Huv)].
    + exists 0, x, y; done.
    + exists (S k), u, v; done.
  - intros ([|k] & u & v & Hu & Hv & Huv); simplify_eq/=; [by left|].
    right; exists k, u, v; done.
Qed.

(** The test of the loop decides dominance as the specification words it. *)
Lemma dominates_spec (a b : list Z) : dominates a b = true <-> Dominates a b.
Proof.
  unfold dominates, Dominates.
  by rewrite andb_true_iff, all_ge_rows, any_gt_rows.
Qed.

Lemma Dominates_irrefl (a : list Z) : ~ Dominates a a.
Proof. intros [_ (k & x & y & Hx & Hy & Hlt)]. simplify_eq. lia. Qed.

Lemma Dominates_asym (a b : list Z) : Dominates a b -> ~ Dominates b a.
Proof.
  intros [_ (k & x & y & Hx & Hy & Hlt)] [Hge _].
  specialize (Hge k y x Hy Hx). lia.
Qed.

Lemma Dominates_trans (a b c : list Z) :
  length a = length b -> length b = length c ->
  Dominates a b -> Dominates b c -> Dominates a c.
Proof.
  intros Hab Hbc [Hge1 (k & x & y & Hx & Hy & Hlt)] [Hge2 _]. split.
  - intros i u w Hu Hw.
    destruct (lookup_lt_is_Some_2 b i) as [v Hv].
    { rewrite <- Hab. eapply lookup_lt_Some, Hu. }
    specialize (Hge1 i u v Hu Hv). specialize (Hge2 i v w Hv Hw). lia.
  - destruct (lookup_lt_is_Some_2 c k) as [z Hz].
    { rewrite <- Hbc. eapply lookup_lt_Some, Hy. }
    exists k, x, z. specialize (Hge2 k y z Hy Hz). repeat split; [done..|lia].
Qed.

Lemma dominates_irrefl (a : list Z) : dominates a a = false.
Proof.
  apply not_true_is_false. rewrite dominates_spec. apply Dominates_irrefl.
Qed.

(** ** The loops *)

Lemma dominated_spec (t : list (list Z)) (i : nat) :
  dominated t i = true <->
  exists j sj si, t !! j = Some sj /\ t !! i = Some si /\ dominates sj si = true.
Proof.
  unfold dominated. rewrite existsb_exists. split.
  - intros (j & _ & Hj). unfold dominates_at in Hj.
    destruct (t !! j) as [sj|] eqn:Ej; [|done].
    destruct (t !! i) as [si|] eqn:Ei; [|done].
    by exists j, sj, si.
  - intros (j & sj & si & Hj & Hi & Hd). exists j. split.
    + apply list_elem_of_In, elem_of_seq. apply lookup_lt_Some in Hj. lia.
    + unfold dominates_at. by rewrite Hj, Hi.
Qed.

(** The inner loop never raises for a candidate in range, and clears the
    flag of [i] exactly when one of the [js] dominates [i]. *)
Lemma inner_loop_ok (t : list (list Z)) (i : nat) (js : list nat) (flags : list bool) :
  i < length t -> i < length flags -> Forall (fun j => j < length t) js ->
  inner_loop t i js flags =
    Returned (if existsb (fun j => dominates_at t j i) js
              then <[i:=false]> flags else flags).
Proof.
  intros Hi Hf Hjs. induction Hjs as [|j js Hj _ IH]; [done|].
  destruct (lookup_lt_is_Some_2 t j Hj) as [sj Ej].
  destruct (lookup_lt_is_Some_2 t i Hi) as [si Ei].
  cbn [inner_loop existsb]. unfold getitem, dominates_at at 1.
  rewrite Ej, Ei. cbn [mbind outcome_bind].
  destruct (dominates sj si); cbn [orb]; [|exact IH].
  unfold setitem. by rewrite (proj2 (Nat.ltb_lt _ _) Hf).
Qed.

Lemma length_mark (t : list (list Z)) (flags : list bool) (i : nat) :
  length (mark t flags i) = length flags.
Proof. unfold mark. destruct (dominated t i); by rewrite ?length_insert. Qed.

Lemma outer_loop_ok (t : list (list Z)) (idxs : list nat) (flags : list bool) :
  length flags = length t -> Forall (fun i => i < length t) idxs ->
  outer_loop t (length t) idxs flags = Returned (foldl (mark t) flags idxs).
Proof.
  intros Hf Hidxs. revert flags Hf.
  induction Hidxs as [|i idxs Hi _ IH]; intros flags Hf; [done|].
  cbn [outer_loop foldl]. unfold range.
  rewrite inner_loop_ok; [|lia..|].
  - cbn [mbind outcome_bind]. apply IH. by rewrite length_mark.
  - apply Forall_forall. intros j Hj%elem_of_seq. lia.
Qed.

Lemma foldl_mark_lookup (t : list (list Z)) (idxs : list nat) (flags : list bool) (k : nat) :
  foldl (mark t) flags idxs !! k =
    if bool_decide (k ∈ idxs) && dominated t k
    then (fun _ => false) <$> flags !! k
    else flags !! k.
Proof.
  revert flags; induction idxs as [|i idxs IH]; intros flags; [done|].
  cbn [foldl]. rewrite IH. unfold mark.
  destruct (decide (k = i)) as [->|Hne].
  - rewrite (bool_decide_eq_true_2 (i ∈ i :: idxs)) by left.
    destruct (dominated t i) eqn:Ed; cbn [andb];
      [|by rewrite andb_false_r].
    rewrite andb_true_r.
    destruct (decide (i < length flags)) as [Hlt|Hge].
    + rewrite list_lookup_insert_eq by done.
      destruct (lookup_lt_is_Some_2 flags i Hlt) as [b ->].
      by destruct (bool_decide _).
    + rewrite list_insert_ge by lia.
      rewrite (lookup_ge_None_2 flags i) by lia.
      by destruct (bool_decide _).
  - assert (bool_decide (k ∈ i :: idxs) = bool_decide (k ∈ idxs)) as ->.
    { apply bool_decide_ext. rewrite elem_of_cons. tauto. }
    destruct (dominated t i); [|done].
    by rewrite list_lookup_insert_ne.
Qed.

(** The flags when the outer loop is over. *)
Lemma foldl_mark_all (t : list (list Z)) :
  foldl (mark t) (ones (length t)) (seq 0 (length t)) =
    (fun i => negb (dominated t i)) <$> seq 0 (length t).
Proof.
  apply list_eq; intros k. rewrite foldl_mark_lookup, list_lookup_fmap.
  unfold ones. destruct (decide (k < length t)) as [Hlt|Hge].
  - rewrite lookup_seq_lt by done. rewrite lookup_replicate_2 by done.
    rewrite bool_decide_eq_true_2 by (apply elem_of_seq; lia).
    cbn. by destruct (dominated t k).
  - rewrite lookup_seq_ge by lia.
    rewrite (lookup_ge_None_2 (replicate (length t) true) k)
      by (rewrite length_replicate; lia).
    by destruct (_ && _).
Qed.

Lemma compress_fmap (f : nat -> bool) (l : list nat) :
  compress (f <$> l) l = filter (fun i => f i = true) l.
Proof.
  induction l as [|x l IH]; [done|].
  cbn [fmap list_fmap compress]. rewrite filter_cons, IH.
  destruct (f x); by case_decide.
Qed.

(** The call returns the non-dominated candidates (the rows being those of
    a 2-D array, compared column by column). *)
Lemma identify_pareto_non_dominated (t : list (list Z)) :
  identify_pareto t = Returned (non_dominated t).
Proof.
  unfold identify_pareto, shape0, range, arange.
  rewrite outer_loop_ok.
  - cbn [mbind outcome_bind]. rewrite foldl_mark_all.
    unfold mask_index. rewrite length_fmap, Nat.eqb_refl, compress_fmap.
    f_equal. unfold non_dominated. apply list_filter_iff.
    intros i. by destruct (dominated t i).
  - unfold ones. by rewrite length_replicate.
  - apply Forall_forall. intros i Hi%elem_of_seq. lia.
Qed.

Lemma elem_of_non_dominated (t : list (list Z)) (i : nat) :
  i ∈ non_dominated t <-> i < length t /\ dominated t i = false.
Proof.
  unfold non_dominated. rewrite list_elem_of_filter, elem_of_seq.
  split; intros [? ?]; split; (done || lia).
Qed.

(** ** A candidate that nothing dominates *)

Lemma lex_gtb_irrefl (a : list Z) : lex_gtb a a = false.
Proof.
  induction a as [|x a IH]; [done|]. cbn [lex_gtb].
  rewrite IH, andb_false_r, orb_false_r. apply Z.ltb_irrefl.
Qed.

Lemma lex_gtb_trans (a b c : list Z) :
  lex_gtb a b = true -> lex_gtb b c = true -> lex_gtb a c = true.
Proof.
  revert b c; induction a as [|x a IH]; intros [|y b] [|z c]; try done.
  cbn [lex_gtb]. rewrite !orb_true_iff, !andb_true_iff, !Z.ltb_lt, !Z.eqb_eq.
  intros [Hyx | [-> Hab]] [Hzy | [-> Hbc]]; eauto with lia.
Qed.

Lemma dominates_lex_gtb (a b : list Z) :
  dominates a b = true -> lex_gtb a b = true.
Proof.
  unfold dominates, all, any, ge_rows, gt_rows.
  revert b; induction a as [|x a IH]; intros [|y b]; try done.
  cbn [zip_with forallb existsb lex_gtb]. unfold id at 1 3.
  rewrite !andb_true_iff, !orb_true_iff, andb_true_iff.
  rewrite Z.geb_le, Z.gtb_lt, Z.ltb_lt, Z.eqb_eq.
  intros [[Hge Hall] [Hgt | Hany]]; [by left|].
  destruct (decide (y = x)) as [->|Hne]; [|left; lia].
  right; split; [done|]. apply IH. by rewrite Hall, Hany.
Qed.

(** A non-empty list of rows has a row that no row of the list exceeds. *)
Lemma lex_maximal (l : list (list Z)) :
  l <> [] -> exists m, m ∈ l /\ forall r, r ∈ l -> lex_gtb r m = false.
Proof.
  induction l as [|a l IH]; [done|]. intros _.
  destruct l as [|b l].
  { exists a. split; [left|]. intros r ->%list_elem_of_singleton.
    apply lex_gtb_irrefl. }
  destruct IH as (m & Hm & Hmax); [done|].
  destruct (lex_gtb a m) eqn:Eam.
  - exists a. split; [left|]. intros r [->|Hr]%elem_of_cons.
    + apply lex_gtb_irrefl.
    + apply not_true_is_false. intros Hra.
      specialize (Hmax r Hr).
      by rewrite (lex_gtb_trans r a m Hra Eam) in Hmax.
  - exists m. split; [by right|]. intros r [->|Hr]%elem_of_cons; auto.
Qed.

(** ** Rows taken in another order *)

Lemma take_rows_lookup (t : list (list Z)) (p : list nat) (a i : nat) :
  p !! a = Some i -> i < length t -> take_rows t p !! a = t !! i.
Proof.
  intros Ha Hi. unfold take_rows. rewrite list_lookup_fmap, Ha. cbn.
  by destruct (lookup_lt_is_Some_2 t i Hi) as [r ->].
Qed.

Lemma length_take_rows (t : list (list Z)) (p : list nat) :
  length (take_rows t p) = length p.
Proof. unfold take_rows. apply length_fmap. Qed.

(** ** Properties of [identify_pareto] *)

(** Being dominated, with the self-comparison left out: a row never
    dominates itself, so comparing [i] with itself changes nothing. *)
Lemma dominated_other (t : list (list Z)) (i : nat) :
  dominated t i = true <->
  exists j sj si,
    j <> i /\ t !! j = Some sj /\ t !! i = Some si /\ Dominates sj si.
Proof.
  rewrite dominated_spec. split.
  - intros (j & sj & si & Hj & Hi & Hd). exists j, sj, si.
    apply dominates_spec in Hd. split; [|done].
    intros ->. simplify_eq. by apply Dominates_irrefl in Hd.
  - intros (j & sj & si & _ & Hj & Hi & Hd). exists j, sj, si.
    by rewrite dominates_spec.
Qed.

Lemma StronglySorted_lt_seq (s n : nat) : StronglySorted lt (seq s n).
Proof.
  revert s; induction n as [|n IH]; intros s; cbn [seq]; constructor; [done|].
  apply Forall_forall. intros k Hk%elem_of_seq. lia.
Qed.

Lemma StronglySorted_filter {A : Type} (R : relation A) (P : A -> Prop)
    `{!forall x, Decision (P x)} (l : list A) :
  StronglySorted R l -> StronglySorted R (filter P l).
Proof.
  induction 1 as [|x l _ IH Hx]; [constructor|].
  rewrite filter_cons. case_decide; [|done].
  constructor; [done|]. rewrite Forall_forall in Hx |- *.
  intros y [_ Hy]%list_elem_of_filter. by apply Hx.
Qed.

Lemma filter_all {A : Type} (P : A -> Prop) `{!forall x, Decision (P x)} (l : list A) :
  (forall x, x ∈ l -> P x) -> filter P l = l.
Proof.
  induction l as [|x l IH]; intros Hall; [done|].
  rewrite filter_cons_True by (apply Hall; left).
  f_equal. apply IH. intros y Hy. apply Hall. by right.
Qed.

Lemma score_lookup (t : list (list Z)) (i k : nat) (r : list Z) :
  t !! i = Some r -> score t i k = r !! k.
Proof. intros H. unfold score. by rewrite H. Qed.

Lemma score_Some (t : list (list Z)) (i k : nat) (x : Z) :
  score t i k = Some x -> exists r, t !! i = Some r /\ r !! k = Some x.
Proof.
  unfold score. destruct (t !! i) as [r|]; [|done]. intros H. by exists r.
Qed.

(** Whoever dominates a maximiser of column [k] is a maximiser of column
    [k] as well. *)
Lemma dominator_of_column_max (t : list (list Z)) (i j k : nat) (x : Z)
    (sj si : list Z) :
  score t i k = Some x ->
  (forall j, j < length t -> exists y, score t j k = Some y /\ (y <= x)%Z) ->
  t !! j = Some sj -> t !! i = Some si -> Dominates sj si ->
  score t j k = Some x.
Proof.
  intros Hx Hmax Hj Hi [Hge _].
  destruct (Hmax j) as (y & Hy & Hle); [by eapply lookup_lt_Some|].
  rewrite Hy. f_equal.
  rewrite (score_lookup t j k sj Hj) in Hy.
  rewrite (score_lookup t i k si Hi) in Hx.
  specialize (Hge k y x Hy Hx). lia.
Qed.

Lemma dominates_at_lt (t : list (list Z)) (j i : nat) :
  dominates_at t j i = true -> j < length t /\ i < length t /\ j <> i.
Proof.
  unfold dominates_at.
  destruct (t !! j) as [sj|] eqn:Ej; [|done].
  destruct (t !! i) as [si|] eqn:Ei; [|done].
  intros Hd. repeat split; [by eapply lookup_lt_Some..|].
  intros ->. simplify_eq. by rewrite dominates_irrefl in Hd.
Qed.

Lemma dominated_at (t : list (list Z)) (i : nat) :
  dominated t i = true <-> exists j, dominates_at t j i = true.
Proof.
  unfold dominated. rewrite existsb_exists. split.
  - intros (j & _ & Hj). by exists j.
  - intros (j & Hj). exists j. split; [|done].
    apply dominates_at_lt in Hj. apply list_elem_of_In, elem_of_seq. lia.
Qed.

Lemma elem_of_dominance_record (t : list (list Z)) (i j : nat) :
  (i, j) ∈ dominance_record t <-> dominates_at t j i = true.
Proof.
  unfold dominance_record. rewrite list_elem_of_bind. split.
  - intros (i' & (j' & Hin & _)%list_elem_of_bind & _).
    destruct (bool_decide (i' <> j') && dominates_at t j' i') eqn:E;
      [|by inversion Hin].
    apply list_elem_of_singleton in Hin. simplify_eq.
    by apply andb_true_iff in E as [_ E].
  - intros Hd. destruct (dominates_at_lt t j i Hd) as (Hj & Hi & Hne).
    exists i. split; [|apply elem_of_seq; lia].
    apply list_elem_of_bind. exists j. split; [|apply elem_of_seq; lia].
    rewrite Hd, bool_decide_eq_true_2 by done. cbn. by left.
Qed.

(** C1. For every score table (in particular every non-empty rectangular
    one) the call returns, and an index [i] is in the returned sequence if
    and only if [i] is a candidate of the table that no other candidate
    [j] dominates, where [j] dominates [i] when the row of [j] is at least
    the row of [i] in every objective and greater in at least one. *)
Theorem identify_pareto_exactly_non_dominated (t : list (list Z)) :
  exists front,
    identify_pareto t = Returned front /\
    forall i,
      i ∈ front <->
      i < length t /\
      ~ exists j sj si,
          j <> i /\ t !! j = Some sj /\ t !! i = Some si /\ Dominates sj si.
Proof.
  exists (non_dominated t). split; [apply identify_pareto_non_dominated|].
  intros i. rewrite elem_of_non_dominated, <- dominated_other.
  by rewrite not_true_iff_false.
Qed.

(** C2. On the 30 candidates of the notebook the call returns the indices
    0, 1, 3, 4, 6, 7, 8, 9, 10; on [[1,1]] it returns 0; on
    [[1,1],[2,2]] it returns 1. *)
Theorem identify_pareto_scenarios :
  identify_pareto scores = Returned [0; 1; 3; 4; 6; 7; 8; 9; 10] /\
  identify_pareto [[1; 1]]%Z = Returned [0] /\
  identify_pareto [[1; 1]; [2; 2]]%Z = Returned [1].
Proof. repeat split; vm_compute; reflexivity. Qed.

(** C3. For every non-empty score table the returned index sequence is
    non-empty. *)
Theorem identify_pareto_nonempty (t : list (list Z)) (Hne : t <> []) :
  exists front, identify_pareto t = Returned front /\ front <> [].
Proof.
  exists (non_dominated t). split; [apply identify_pareto_non_dominated|].
  destruct (lex_maximal t Hne) as (m & Hm & Hmax).
  apply list_elem_of_lookup_1 in Hm as [i Hi].
  assert (i ∈ non_dominated t) as Hin; [|by intros E; rewrite E in Hin; inversion Hin].
  apply elem_of_non_dominated. split; [by eapply lookup_lt_Some|].
  apply not_true_is_false. intros (j & sj & si & Hj & Hi' & Hd)%dominated_spec.
  simplify_eq. apply dominates_lex_gtb in Hd.
  rewrite Hmax in Hd; [done|]. by eapply list_elem_of_lookup_2.
Qed.

Lemma identify_pareto_nonempty_witness :
  exists front, identify_pareto [[1; 2]; [2; 1]]%Z = Returned front /\ front <> [].
Proof. apply identify_pareto_nonempty. discriminate. Defined.

(** C4, as the claim states it, fails: in the table [[5,1],[5,2]] both
    candidates attain the maximum 5 of column 0, yet candidate 1 dominates
    candidate 0, which is therefore not returned. *)
Lemma column_maximum_tie_dominated :
  score [[5; 1]; [5; 2]]%Z 0 0 = Some 5%Z /\
  (forall j y, score [[5; 1]; [5; 2]]%Z j 0 = Some y -> (y <= 5)%Z) /\
  identify_pareto [[5; 1]; [5; 2]]%Z = Returned [1] /\
  ~ exists front,
      identify_pareto [[5; 1]; [5; 2]]%Z = Returned front /\ 0 ∈ front.
Proof.
  split; [done|]. split.
  { intros [|[|j]] y; cbn; intros; simplify_eq; lia. }
  split; [done|]. intros (front & Hf & Hin).
  vm_compute in Hf. simplify_eq.
  apply list_elem_of_singleton in Hin. discriminate.
Qed.

(** C4, amended.  Let [x] be the maximum of column [k], attained by
    candidate [i].  Then [i] is returned if and only if no other candidate
    that also attains [x] in column [k] dominates it; in particular [i] is
    returned when it is the only candidate attaining [x]; and at least one
    candidate attaining [x] is returned. *)
Theorem column_maximum_on_front (t : list (list Z)) (i k : nat) (x : Z)
    (Hx : score t i k = Some x)
    (Hmax : forall j, j < length t ->
              exists y, score t j k = Some y /\ (y <= x)%Z) :
  exists front,
    identify_pareto t = Returned front /\
    (i ∈ front <->
     ~ exists j sj si,
         j <> i /\ score t j k = Some x /\
         t !! j = Some sj /\ t !! i = Some si /\ Dominates sj si) /\
    ((forall j, j <> i -> score t j k <> Some x) -> i ∈ front) /\
    (exists i', score t i' k = Some x /\ i' ∈ front).
Proof.
  exists (non_dominated t). split; [apply identify_pareto_non_dominated|].
  destruct (score_Some t i k x Hx) as (ri & Hi & Hrik).
  assert (Hlt : i < length t) by (by eapply lookup_lt_Some).
  assert (Hiff : i ∈ non_dominated t <->
     ~ exists j sj si,
         j <> i /\ score t j k = Some x /\
         t !! j = Some sj /\ t !! i = Some si /\ Dominates sj si).
  { rewrite elem_of_non_dominated, <- not_true_iff_false, dominated_other.
    split.
    - intros [_ Hnd] (j & sj & si & Hne & _ & Hj & Hi' & Hd).
      apply Hnd. by exists j, sj, si.
    - intros Hnd. split; [done|]. intros (j & sj & si & Hne & Hj & Hi' & Hd).
      apply Hnd. exists j, sj, si. split; [done|].
      split; [by eapply dominator_of_column_max|]. auto. }
  split; [exact Hiff|]. split.
  - intros Huniq. apply Hiff. intros (j & sj & si & Hne & Hj & _).
    by apply (Huniq j).
  - destruct (lex_maximal (filter (fun r => r !! k = Some x) t))
      as (m & [Hmk Hm]%list_elem_of_filter & Hbest).
    { intros E. eapply (filter_nil_not_elem_of _ _ ri E Hrik).
      by eapply list_elem_of_lookup_2. }
    apply list_elem_of_lookup_1 in Hm as [i' Hi'].
    assert (Hx' : score t i' k = Some x) by (by rewrite (score_lookup t i' k m)).
    exists i'. split; [done|].
    apply elem_of_non_dominated. split; [by eapply lookup_lt_Some|].
    apply not_true_is_false.
    intros (j & sj & si & Hne & Hj & Hi'' & Hd)%dominated_other.
    simplify_eq.
    assert (Hsj : score t j k = Some x)
      by (by eapply (dominator_of_column_max t i' j)).
    rewrite (score_lookup t j k sj Hj) in Hsj.
    apply dominates_spec, dominates_lex_gtb in Hd.
    rewrite Hbest in Hd; [done|].
    apply list_elem_of_filter. split; [done|]. by eapply list_elem_of_lookup_2.
Qed.

Lemma column_maximum_on_front_witness :
  exists front,
    identify_pareto [[5; 1]; [3; 2]]%Z = Returned front /\ 0 ∈ front.
Proof.
  destruct (column_maximum_on_front [[5; 1]; [3; 2]]%Z 0 0 5%Z)
    as (front & Hf & _ & Huniq & _).
  - reflexivity.
  - intros [|[|j]] Hj; cbn in Hj |- *; [exists 5%Z|exists 3%Z|lia]; split; (done || lia).
  - exists front. split; [exact Hf|]. apply Huniq.
    intros [|[|j]] Hne; [done|discriminate..].
Defined.

(** Whether a candidate is dominated depends on its row only. *)
Lemma dominated_same_row (t : list (list Z)) (i j : nat) (r : list Z) :
  t !! i = Some r -> t !! j = Some r -> dominated t i = dominated t j.
Proof.
  intros Hi Hj. apply eq_true_iff_eq. rewrite !dominated_spec.
  split; intros (c & sc & s' & Hc & Hs & Hd); simplify_eq;
    by exists c, sc, r.
Qed.

(** C5. Two candidates with identical score vectors are both returned or
    both left out; and when all candidates share one score vector, every
    index is returned. *)
Theorem identify_pareto_duplicates (t : list (list Z)) :
  exists front,
    identify_pareto t = Returned front /\
    (forall i j r, t !! i = Some r -> t !! j = Some r ->
       (i ∈ front <-> j ∈ front)) /\
    ((forall r r', r ∈ t -> r' ∈ t -> r = r') -> front = seq 0 (length t)).
Proof.
  exists (non_dominated t). split; [apply identify_pareto_non_dominated|].
  split.
  - intros i j r Hi Hj. rewrite !elem_of_non_dominated.
    rewrite (dominated_same_row t i j r Hi Hj).
    apply lookup_lt_Some in Hi, Hj. tauto.
  - intros Hsame. unfold non_dominated. apply filter_all.
    intros i _. apply not_true_is_false.
    intros (j & sj & si & Hj & Hi & Hd)%dominated_spec.
    apply list_elem_of_lookup_2 in Hj, Hi.
    rewrite (Hsame sj si Hj Hi), dominates_irrefl in Hd. done.
Qed.

Lemma identify_pareto_duplicates_witness :
  identify_pareto (replicate 5 [10; 10]%Z) = Returned [0; 1; 2; 3; 4] /\
  (2 ∈ [0; 1; 2; 3; 4] <-> 4 ∈ [0; 1; 2; 3; 4]).
Proof.
  destruct (identify_pareto_duplicates (replicate 5 [10; 10]%Z))
    as (front & Hf & Hpair & Hall).
  assert (front = [0; 1; 2; 3; 4]) as ->.
  { apply Hall. intros r r' ->%elem_of_replicate_inv ->%elem_of_replicate_inv.
    reflexivity. }
  split; [exact Hf|]. apply (Hpair 2 4 [10; 10]%Z); reflexivity.
Defined.

(** The rows of the table in the order [p], for [p] a permutation of the
    row indices: position [a] holds the row of [p[a]], and every row of the
    table is found at some position. *)
Lemma take_rows_perm_lookup (t : list (list Z)) (p : list nat) (a : nat) (r : list Z) :
  p ≡ₚ seq 0 (length t) ->
  take_rows t p !! a = Some r <-> exists i, p !! a = Some i /\ t !! i = Some r.
Proof.
  intros Hp. split.
  - intros Ha. destruct (p !! a) as [i|] eqn:Epa.
    + exists i. split; [done|]. rewrite <- Ha. symmetry.
      apply take_rows_lookup; [done|].
      apply list_elem_of_lookup_2 in Epa. rewrite Hp in Epa.
      apply elem_of_seq in Epa. lia.
    + apply lookup_lt_Some in Ha. rewrite length_take_rows in Ha.
      apply lookup_ge_None_1 in Epa. lia.
  - intros (i & Hpa & Hi). rewrite <- Hi. apply take_rows_lookup; [done|].
    by eapply lookup_lt_Some.
Qed.

Lemma dominated_take_rows (t : list (list Z)) (p : list nat) (a i : nat) :
  p ≡ₚ seq 0 (length t) -> p !! a = Some i ->
  dominated (take_rows t p) a = dominated t i.
Proof.
  intros Hp Ha. apply eq_true_iff_eq. rewrite !dominated_spec. split.
  - intros (c & sc & sa & Hc & Hsa & Hd).
    apply (take_rows_perm_lookup t p c sc Hp) in Hc as (j & _ & Hj).
    apply (take_rows_perm_lookup t p a sa Hp) in Hsa as (i' & Hi' & Hsi).
    simplify_eq. by exists j, sc, sa.
  - intros (j & sj & si & Hj & Hi & Hd).
    assert (j ∈ p) as [c Hc]%list_elem_of_lookup_1.
    { rewrite Hp. apply elem_of_seq. apply lookup_lt_Some in Hj. lia. }
    exists c, sj, si. split; [|split; [|done]].
    + apply (take_rows_perm_lookup t p c sj Hp). by exists j.
    + apply (take_rows_perm_lookup t p a si Hp). by exists i.
Qed.

(** C6. Let [p] be a permutation of the row indices.  The call on the
    table with its rows in the order [p] returns position [a] exactly when
    the call on the original table returns [p[a]], the index of the same
    row (the same score vector) in the original table. *)
Theorem identify_pareto_permutation (t : list (list Z)) (p : list nat)
    (Hp : p ≡ₚ seq 0 (length t)) :
  exists front front',
    identify_pareto t = Returned front /\
    identify_pareto (take_rows t p) = Returned front' /\
    forall a i, p !! a = Some i ->
      take_rows t p !! a = t !! i /\ (a ∈ front' <-> i ∈ front).
Proof.
  exists (non_dominated t), (non_dominated (take_rows t p)).
  split; [apply identify_pareto_non_dominated|].
  split; [apply identify_pareto_non_dominated|].
  intros a i Ha.
  assert (Hi : i < length t).
  { apply list_elem_of_lookup_2 in Ha. rewrite Hp in Ha.
    apply elem_of_seq in Ha. lia. }
  split; [by apply take_rows_lookup|].
  rewrite !elem_of_non_dominated, length_take_rows.
  rewrite (dominated_take_rows t p a i Hp Ha).
  apply lookup_lt_Some in Ha. tauto.
Qed.

Lemma identify_pareto_permutation_witness :
  exists front front',
    identify_pareto [[1; 1]; [2; 2]; [0; 3]]%Z = Returned front /\
    identify_pareto (take_rows [[1; 1]; [2; 2]; [0; 3]]%Z [2; 0; 1])
      = Returned front' /\
    (0 ∈ front' <-> 2 ∈ front) /\ (1 ∈ front' <-> 0 ∈ front) /\
    (2 ∈ front' <-> 1 ∈ front).
Proof.
  destruct (identify_pareto_permutation [[1; 1]; [2; 2]; [0; 3]]%Z [2; 0; 1])
    as (front & front' & Hf & Hf' & Htrack).
  - cbn. change [2; 0; 1] with ([2] ++ [0; 1]).
    change [0; 1; 2] with ([0; 1] ++ [2]). apply Permutation_app_comm.
  - exists front, front'. split; [exact Hf|]. split; [exact Hf'|].
    split; [apply (Htrack 0 2); reflexivity|].
    split; [apply (Htrack 1 0); reflexivity|apply (Htrack 2 1); reflexivity].
Defined.

(** C7, as the claim states it, fails: on the empty table the call
    returns the empty index sequence; it does not raise. *)
Lemma identify_pareto_empty_not_invalid :
  identify_pareto [] = Returned [] /\
  identify_pareto [] <> Raised InvalidInput.
Proof. split; [reflexivity|discriminate]. Qed.

(** C7, amended.  Called with an empty score table (zero candidates) the
    function returns the empty index sequence; it raises no error. *)
Theorem identify_pareto_empty_returns (t : list (list Z))
    (Hempty : shape0 t = 0) :
  identify_pareto t = Returned [] /\
  forall e, identify_pareto t <> Raised e.
Proof.
  destruct t as [|r t]; [|discriminate Hempty].
  split; [reflexivity|]. intros e. discriminate.
Qed.

Lemma identify_pareto_empty_returns_witness :
  identify_pareto [] = Returned [] /\
  forall e, identify_pareto [] <> Raised e.
Proof. apply identify_pareto_empty_returns. reflexivity. Defined.

(** C8. The dominance test of the code is a strict partial order on score
    vectors of one length: no vector dominates itself, two vectors never
    dominate each other, and dominance is transitive. *)
Theorem dominates_strict_partial_order (a b c : list Z)
    (Hab : length a = length b) (Hbc : length b = length c) :
  dominates a a = false /\
  (dominates a b = true -> dominates b a = false) /\
  (dominates a b = true -> dominates b c = true -> dominates a c = true).
Proof.
  split; [apply dominates_irrefl|]. split.
  - intros H%dominates_spec. apply not_true_is_false.
    rewrite dominates_spec. by apply Dominates_asym.
  - rewrite !dominates_spec. by apply Dominates_trans.
Qed.

Lemma dominates_strict_partial_order_witness :
  dominates [3; 2]%Z [3; 2]%Z = false /\
  dominates [2; 2]%Z [3; 2]%Z = false /\
  dominates [3; 2]%Z [1; 1]%Z = true.
Proof.
  destruct (dominates_strict_partial_order [3; 2]%Z [2; 2]%Z [1; 1]%Z)
    as (Hirr & Hasym & Htrans); [reflexivity..|].
  split; [exact Hirr|]. split; [apply Hasym|apply Htrans]; reflexivity.
Defined.

(** C9. The loop of the code, which also compares each candidate with
    itself and leaves the inner loop at the first dominator found, returns
    the same index sequence as the exhaustive reference, which examines
    every ordered pair of distinct candidates and records every
    dominance. *)
Theorem identify_pareto_refines_exhaustive (t : list (list Z)) :
  identify_pareto t = Returned (identify_pareto_exhaustive t).
Proof.
  rewrite identify_pareto_non_dominated. f_equal.
  unfold non_dominated, identify_pareto_exhaustive. apply list_filter_iff.
  intros i. rewrite <- not_true_iff_false, dominated_at.
  apply not_iff_compat. rewrite list_elem_of_fmap. split.
  - intros (j & Hj). exists (i, j). split; [done|].
    by apply elem_of_dominance_record.
  - intros ([i' j] & -> & Hin). exists j. by apply elem_of_dominance_record.
Qed.

(** C10. The returned index sequence is strictly increasing and every
    returned index is below the number of rows; so it has no duplicate and
    no index out of range. *)
Theorem identify_pareto_increasing_in_range (t : list (list Z)) :
  exists front,
    identify_pareto t = Returned front /\
    StronglySorted lt front /\
    Forall (fun i => i < length t) front /\
    NoDup front.
Proof.
  exists (non_dominated t). split; [apply identify_pareto_non_dominated|].
  split; [apply StronglySorted_filter, StronglySorted_lt_seq|]. split.
  - apply Forall_forall. by intros i [Hi _]%elem_of_non_dominated.
  - apply NoDup_filter, NoDup_seq.
Qed.

(** ** Further properties: the rows of the front *)

Lemma getitems_in_range (t : list (list Z)) (idx : list nat) :
  Forall (fun i => i < length t) idx ->
  getitems t idx = Returned (take_rows t idx).
Proof.
  induction 1 as [|i idx Hi _ IH]; [done|].
  cbn [getitems]. unfold getitem.
  destruct (lookup_lt_is_Some_2 t i Hi) as [r Hr].
  rewrite Hr, IH. cbn. by rewrite Hr.
Qed.

Lemma non_dominated_in_range (t : list (list Z)) :
  Forall (fun i => i < length t) (non_dominated t).
Proof. apply Forall_forall. by intros i [Hi _]%elem_of_non_dominated. Qed.

Lemma pareto_front_rows_eq (t : list (list Z)) :
  pareto_front_rows t = Returned (take_rows t (non_dominated t)).
Proof.
  unfold pareto_front_rows. rewrite identify_pareto_non_dominated. cbn.
  apply getitems_in_range, non_dominated_in_range.
Qed.

(** A row of a selection of rows is a row of the table. *)
Lemma take_rows_lookup_inv (t : list (list Z)) (p : list nat) (a : nat) (r : list Z) :
  Forall (fun i => i < length t) p ->
  take_rows t p !! a = Some r -> exists i, p !! a = Some i /\ t !! i = Some r.
Proof.
  intros Hp Ha. destruct (p !! a) as [i|] eqn:Epa.
  - exists i. split; [done|]. rewrite <- Ha. symmetry.
    apply take_rows_lookup; [done|].
    rewrite Forall_forall in Hp. by eapply Hp, list_elem_of_lookup_2.
  - apply lookup_lt_Some in Ha. rewrite length_take_rows in Ha.
    apply lookup_ge_None_1 in Epa. lia.
Qed.

(** A candidate that nothing dominates in the table is dominated by
    nothing in a selection of rows of the table. *)
Lemma dominated_selection (t : list (list Z)) (p : list nat) (a i : nat) :
  Forall (fun i => i < length t) p -> p !! a = Some i ->
  dominated (take_rows t p) a = true -> dominated t i = true.
Proof.
  intros Hp Ha. rewrite !dominated_spec.
  intros (c & sc & sa & Hc & Hsa & Hd).
  apply (take_rows_lookup_inv t p c sc Hp) in Hc as (j & _ & Hj).
  apply (take_rows_lookup_inv t p a sa Hp) in Hsa as (i' & Hi' & Hsi).
  simplify_eq. by exists j, sc, sa.
Qed.

(** No row of the front dominates another. *)
Lemma front_rows_incomparable (t : list (list Z)) (r r' : list Z) :
  r ∈ take_rows t (non_dominated t) -> r' ∈ take_rows t (non_dominated t) ->
  dominates r r' = false.
Proof.
  intros [a Ha]%list_elem_of_lookup_1 [b Hb]%list_elem_of_lookup_1.
  pose proof (non_dominated_in_range t) as Hrange.
  apply (take_rows_lookup_inv t _ a r Hrange) in Ha as (j & _ & Hj).
  apply (take_rows_lookup_inv t _ b r' Hrange) in Hb as (i & Hi & Hri).
  apply list_elem_of_lookup_2, elem_of_non_dominated in Hi as [_ Hnd].
  apply not_true_is_false. intros Hd.
  rewrite (proj2 (dominated_spec t i)) in Hnd; [done|].
  by exists j, r, r'.
Qed.

(** X1. The selection [scores[pareto]] of the returned indices never
    raises; it holds one row per returned index, and no selected row
    dominates another. *)
Theorem pareto_front_rows_antichain (t : list (list Z)) :
  exists front rows,
    identify_pareto t = Returned front /\
    pareto_front_rows t = Returned rows /\
    length rows = length front /\
    (forall a i, front !! a = Some i -> rows !! a = t !! i) /\
    (forall r r', r ∈ rows -> r' ∈ rows -> dominates r r' = false).
Proof.
  exists (non_dominated t), (take_rows t (non_dominated t)).
  split; [apply identify_pareto_non_dominated|].
  split; [apply pareto_front_rows_eq|].
  split; [apply length_take_rows|]. split.
  - intros a i Ha. apply take_rows_lookup; [done|].
    by apply list_elem_of_lookup_2, elem_of_non_dominated in Ha as [? _].
  - apply front_rows_incomparable.
Qed.

(** X2. The function is idempotent on its result: called on the rows of
    the front, it returns every index. *)
Theorem identify_pareto_idempotent (t : list (list Z)) :
  exists rows,
    pareto_front_rows t = Returned rows /\
    identify_pareto rows = Returned (seq 0 (length rows)).
Proof.
  exists (take_rows t (non_dominated t)). split; [apply pareto_front_rows_eq|].
  rewrite identify_pareto_non_dominated. f_equal.
  unfold non_dominated at 1. apply filter_all.
  intros a Ha%elem_of_seq. rewrite length_take_rows in Ha.
  destruct (lookup_lt_is_Some_2 (non_dominated t) a) as [i Hi]; [lia|].
  apply not_true_is_false. intros Hd.
  apply (dominated_selection t _ a i (non_dominated_in_range t) Hi) in Hd.
  apply list_elem_of_lookup_2, elem_of_non_dominated in Hi as [_ Hnd].
  congruence.
Qed.

(** X3. A returned candidate stays on the front of every selection of
    rows that contains it: leaving candidates out never turns a returned
    candidate into a dominated one. *)
Theorem identify_pareto_selection (t : list (list Z)) (p : list nat) (a i : nat)
    (Hp : Forall (fun i => i < length t) p) (Ha : p !! a = Some i) :
  exists front front',
    identify_pareto t = Returned front /\
    identify_pareto (take_rows t p) = Returned front' /\
    (i ∈ front -> a ∈ front').
Proof.
  exists (non_dominated t), (non_dominated (take_rows t p)).
  split; [apply identify_pareto_non_dominated|].
  split; [apply identify_pareto_non_dominated|].
  rewrite !elem_of_non_dominated, length_take_rows. intros [_ Hnd]. split.
  - by eapply lookup_lt_Some.
  - apply not_true_is_false. intros Hd.
    apply (dominated_selection t p a i Hp Ha) in Hd. congruence.
Qed.

Lemma identify_pareto_selection_witness :
  exists front front',
    identify_pareto [[1; 2]; [2; 2]; [3; 0]]%Z = Returned front /\
    identify_pareto (take_rows [[1; 2]; [2; 2]; [3; 0]]%Z [2; 0])
      = Returned front' /\
    (2 ∈ front -> 0 ∈ front').
Proof.
  apply (identify_pareto_selection [[1; 2]; [2; 2]; [3; 0]]%Z [2; 0] 0 2).
  - repeat constructor.
  - reflexivity.
Defined.

(** ** Further properties: dominated candidates *)

Lemma dominates_trans (a b c : list Z) :
  length a = length b -> length b = length c ->
  dominates a b = true -> dominates b c = true -> dominates a c = true.
Proof. rewrite !dominates_spec. apply Dominates_trans. Qed.

Lemma rectangular_lookup (m : nat) (t : list (list Z)) (i : nat) (r : list Z) :
  rectangular m t -> t !! i = Some r -> length r = m.
Proof. intros Ht Hi. by eapply (Forall_lookup_1 _ t i r Ht). Qed.

(** In a rectangular table, whatever dominates candidate [i] is dominated
    by nothing or leads to a dominator of [i] that nothing dominates. *)
Lemma dominated_by_non_dominated (m : nat) (t : list (list Z)) (i : nat) :
  rectangular m t -> dominated t i = true ->
  exists j, dominated t j = false /\ dominates_at t j i = true.
Proof.
  intros Ht (c & sc & si & Hc & Hi & Hd)%dominated_spec.
  destruct (lex_maximal (filter (fun r => dominates r si = true) t))
    as (b & [Hbi Hb]%list_elem_of_filter & Hbest).
  { intros E. eapply (filter_nil_not_elem_of _ _ sc E Hd).
    by eapply list_elem_of_lookup_2. }
  apply list_elem_of_lookup_1 in Hb as [j Hj]. exists j. split.
  - apply not_true_is_false.
    intros (d & sd & sb & Hsd & Hsb & Hdb)%dominated_spec. simplify_eq.
    assert (dominates sd si = true) as Hdi.
    { apply (dominates_trans sd b si); [| |done..].
      - by rewrite (rectangular_lookup m t d sd), (rectangular_lookup m t j b).
      - by rewrite (rectangular_lookup m t j b), (rectangular_lookup m t i si). }
    apply dominates_lex_gtb in Hdb. rewrite Hbest in Hdb; [done|].
    apply list_elem_of_filter. split; [done|]. by eapply list_elem_of_lookup_2.
  - unfold dominates_at. by rewrite Hj, Hi.
Qed.

(** X4. In a rectangular table every candidate that is not returned is
    dominated by a candidate that is returned. *)
Theorem identify_pareto_covers (m : nat) (t : list (list Z)) (i : nat)
    (Ht : rectangular m t) (Hi : i < length t) :
  exists front,
    identify_pareto t = Returned front /\
    (i ∉ front ->
     exists j sj si,
       j ∈ front /\ t !! j = Some sj /\ t !! i = Some si /\ Dominates sj si).
Proof.
  exists (non_dominated t). split; [apply identify_pareto_non_dominated|].
  intros Hout. destruct (dominated t i) eqn:Ed.
  - destruct (dominated_by_non_dominated m t i Ht Ed) as (j & Hj & Hji).
    unfold dominates_at in Hji.
    destruct (t !! j) as [sj|] eqn:Ej; [|done].
    destruct (t !! i) as [si|] eqn:Ei; [|done].
    exists j, sj, si. split; [|by rewrite <- dominates_spec].
    apply elem_of_non_dominated. split; [by eapply lookup_lt_Some|done].
  - destruct Hout. by apply elem_of_non_dominated.
Qed.

Lemma identify_pareto_covers_witness :
  exists front,
    identify_pareto [[1; 1]; [2; 2]; [3; 3]]%Z = Returned front /\
    (0 ∉ front ->
     exists j sj si,
       j ∈ front /\ [[1; 1]; [2; 2]; [3; 3]]%Z !! j = Some sj /\
       [[1; 1]; [2; 2]; [3; 3]]%Z !! 0 = Some si /\ Dominates sj si).
Proof.
  apply (identify_pareto_covers 2 [[1; 1]; [2; 2]; [3; 3]]%Z 0).
  - repeat constructor.
  - cbn. lia.
Defined.

Lemma filter_ext_in {A : Type} (P Q : A -> Prop) `{!forall x, Decision (P x)}
    `{!forall x, Decision (Q x)} (l : list A) :
  (forall x, x ∈ l -> P x <-> Q x) -> filter P l = filter Q l.
Proof.
  induction l as [|x l IH]; intros Hext; [done|].
  rewrite !filter_cons.
  rewrite IH by (intros y Hy; apply Hext; by right).
  assert (P x <-> Q x) as Hx by (apply Hext; left).
  repeat case_decide; tauto || done.
Qed.

(** X5. Appending to a rectangular table a candidate that some candidate
    of the table dominates leaves the returned indices unchanged. *)
Theorem identify_pareto_append_dominated (m : nat) (t : list (list Z))
    (r s : list Z)
    (Ht : rectangular m t) (Hr : length r = m)
    (Hs : s ∈ t) (Hsr : dominates s r = true) :
  exists front,
    identify_pareto t = Returned front /\
    identify_pareto (t ++ [r]) = Returned front.
Proof.
  exists (non_dominated t). split; [apply identify_pareto_non_dominated|].
  rewrite identify_pareto_non_dominated. f_equal.
  unfold non_dominated. rewrite length_app. cbn [length].
  rewrite Nat.add_1_r, seq_S, filter_app. cbn [Nat.add].
  apply list_elem_of_lookup_1 in Hs as [c Hc].
  rewrite (filter_cons_False _ (length t)), filter_nil, app_nil_r.
  - apply filter_ext_in. intros i Hi%elem_of_seq.
    rewrite <- !not_true_iff_false. apply not_iff_compat.
    destruct (lookup_lt_is_Some_2 t i) as [si Hsi]; [lia|].
    rewrite !dominated_spec. split.
    + intros (j & sj & si' & Hj & Hi' & Hd).
      rewrite lookup_app_l in Hi' by lia. simplify_eq.
      destruct (decide (j < length t)) as [Hlt|Hge].
      * rewrite lookup_app_l in Hj by done. by exists j, sj, si.
      * rewrite lookup_app_r in Hj by lia.
        apply list_lookup_singleton_Some in Hj as [_ <-].
        exists c, s, si. repeat split; [done..|].
        apply (dominates_trans s r si); [| |done..].
        -- by apply (rectangular_lookup _ t c s Ht).
        -- symmetry. by apply (rectangular_lookup _ t i si Ht).
    + intros (j & sj & si' & Hj & Hi' & Hd). exists j, sj, si'.
      rewrite !lookup_app_l by (by eapply lookup_lt_Some). done.
  - rewrite not_false_iff_true. apply dominated_spec.
    exists c, s, r. split; [|split; [|done]].
    + rewrite lookup_app_l; [done|]. by eapply lookup_lt_Some.
    + rewrite lookup_app_r by done. by rewrite Nat.sub_diag.
Qed.

Lemma identify_pareto_append_dominated_witness :
  exists front,
    identify_pareto [[1; 2]; [2; 1]]%Z = Returned front /\
    identify_pareto ([[1; 2]; [2; 1]] ++ [[1; 1]])%Z = Returned front.
Proof.
  apply (identify_pareto_append_dominated 2 [[1; 2]; [2; 1]]%Z [1; 1]%Z [1; 2]%Z).
  - repeat constructor.
  - reflexivity.
  - left.
  - reflexivity.
Defined.

(** ** Further properties: two objectives and the sorted front *)

Lemma dominates_pair (x1 y1 x2 y2 : Z) :
  (x1 <= x2)%Z -> (y1 <= y2)%Z -> (x1 < x2 \/ y1 < y2)%Z ->
  dominates [x2; y2] [x1; y1] = true.
Proof.
  intros Hx Hy Hs. unfold dominates, all, any, ge_rows, gt_rows, id. cbn.
  rewrite !andb_true_r, orb_false_r, !andb_true_iff, orb_true_iff.
  rewrite !Z.geb_le, !Z.gtb_lt. lia.
Qed.

(** X6. With two objectives, a returned candidate that scores less than
    another candidate on the first objective scores more than it on the
    second. *)
Theorem two_objective_trade_off (t : list (list Z)) (i j : nat)
    (x1 y1 x2 y2 : Z)
    (Hi : t !! i = Some [x1; y1]) (Hj : t !! j = Some [x2; y2])
    (Hlt : (x1 < x2)%Z) :
  exists front,
    identify_pareto t = Returned front /\ (i ∈ front -> (y2 < y1)%Z).
Proof.
  exists (non_dominated t). split; [apply identify_pareto_non_dominated|].
  intros [_ Hnd]%elem_of_non_dominated.
  destruct (decide (y2 < y1)%Z) as [|Hge]; [done|].
  rewrite (proj2 (dominated_spec t i)) in Hnd; [done|].
  exists j, [x2; y2], [x1; y1]. repeat split; [done..|].
  apply dominates_pair; lia.
Qed.

Lemma two_objective_trade_off_witness :
  exists front,
    identify_pareto [[1; 5]; [2; 3]; [0; 0]]%Z = Returned front /\
    (0 ∈ front -> (3 < 5)%Z).
Proof.
  apply (two_objective_trade_off [[1; 5]; [2; 3]; [0; 0]]%Z 0 1 1 5 2 3);
    [reflexivity | reflexivity | lia].
Defined.

Lemma StronglySorted_impl_in {A : Type} (R R' : relation A) (l : list A) :
  (forall a b, a ∈ l -> b ∈ l -> R a b -> R' a b) ->
  StronglySorted R l -> StronglySorted R' l.
Proof.
  intros Himpl Hl. induction Hl as [|x l _ IH Hx]; [constructor|].
  constructor.
  - apply IH. intros a b Ha Hb. apply Himpl; by right.
  - rewrite Forall_forall in Hx |- *. intros y Hy.
    apply Himpl; [left|by right|by apply Hx].
Qed.

Lemma row_of_two (r : list Z) : length r = 2 -> r = [col 0 r; col 1 r].
Proof. destruct r as [|x [|y [|z r]]]; by intros. Qed.

(** Among the rows of the front of a two-column table, more on the first
    objective means no more on the second. *)
Lemma front_rows_trade_off (t : list (list Z)) (a b : list Z) :
  rectangular 2 t ->
  a ∈ take_rows t (non_dominated t) -> b ∈ take_rows t (non_dominated t) ->
  (col 0 a <= col 0 b)%Z -> (col 1 b <= col 1 a)%Z.
Proof.
  intros Ht Ha Hb Hle.
  pose proof (front_rows_incomparable t b a Hb Ha) as Hnd.
  pose proof (non_dominated_in_range t) as Hrange.
  apply list_elem_of_lookup_1 in Ha as [ia Ha], Hb as [ib Hb].
  apply (take_rows_lookup_inv t _ ia a Hrange) in Ha as (i & _ & Hi).
  apply (take_rows_lookup_inv t _ ib b Hrange) in Hb as (j & _ & Hj).
  apply (rectangular_lookup 2 t i a Ht), row_of_two in Hi.
  apply (rectangular_lookup 2 t j b Ht), row_of_two in Hj.
  destruct (decide (col 1 b <= col 1 a)%Z) as [|Hgt]; [done|].
  rewrite Hi, Hj, dominates_pair in Hnd; [done|lia..].
Qed.

(** X7. The rows of the front of a two-column table, arranged in
    ascending order of the first column (as [sort_values(0)] leaves them),
    are in descending order of the second column; and this arrangement is
    unique, so it does not depend on how the sort breaks ties. *)
Theorem sorted_front_descending (t : list (list Z)) (Ht : rectangular 2 t) :
  exists rows,
    pareto_front_rows t = Returned rows /\
    forall l,
      l ≡ₚ rows -> Sorted (fun a b => col 0 a <= col 0 b)%Z l ->
      StronglySorted (fun a b => col 1 b <= col 1 a)%Z l /\
      forall l',
        l' ≡ₚ rows -> Sorted (fun a b => col 0 a <= col 0 b)%Z l' -> l' = l.
Proof.
  exists (take_rows t (non_dominated t)). split; [apply pareto_front_rows_eq|].
  assert (Htrans : Transitive (fun a b : list Z => col 0 a <= col 0 b)%Z).
  { intros a b c. lia. }
  intros l Hl Hsorted. apply Sorted_StronglySorted in Hsorted; [|done].
  split.
  - eapply StronglySorted_impl_in; [|exact Hsorted].
    intros a b Ha Hb. rewrite Hl in Ha, Hb.
    by apply (front_rows_trade_off t a b Ht).
  - intros l' Hl' Hsorted'. apply Sorted_StronglySorted in Hsorted'; [|done].
    eapply (StronglySorted_unique_strong _ l' l); [|done..|by rewrite Hl, Hl'].
    intros a b Ha Hb Hab Hba. rewrite Hl' in Ha. rewrite Hl in Hb.
    pose proof (front_rows_trade_off t a b Ht Ha Hb Hab).
    pose proof (front_rows_trade_off t b a Ht Hb Ha Hba).
    pose proof (non_dominated_in_range t) as Hrange.
    apply list_elem_of_lookup_1 in Ha as [ia Ha], Hb as [ib Hb].
    apply (take_rows_lookup_inv t _ ia a Hrange) in Ha as (i & _ & Hi).
    apply (take_rows_lookup_inv t _ ib b Hrange) in Hb as (j & _ & Hj).
    apply (rectangular_lookup 2 t i a Ht), row_of_two in Hi.
    apply (rectangular_lookup 2 t j b Ht), row_of_two in Hj.
    cbn beta in Hab, Hba. rewrite Hi, Hj. f_equal; [|f_equal]; lia.
Qed.

Lemma sorted_front_descending_witness :
  StronglySorted (fun a b => col 1 b <= col 1 a)%Z [[1; 5]; [2; 3]; [4; 1]]%Z.
Proof.
  destruct (sorted_front_descending [[2; 3]; [1; 1]; [4; 1]; [1; 5]]%Z)
    as (rows & Hrows & Hsorted).
  - repeat constructor.
  - vm_compute in Hrows. injection Hrows as <-.
    apply (Hsorted [[1; 5]; [2; 3]; [4; 1]]%Z).
    + change ([[1; 5]; [2; 3]; [4; 1]]%Z) with ([[1; 5]] ++ [[2; 3]; [4; 1]])%Z.
      change ([[2; 3]; [4; 1]; [1; 5]]%Z) with ([[2; 3]; [4; 1]] ++ [[1; 5]])%Z.
      apply Permutation_app_comm.
    + repeat constructor; cbn; lia.
Defined.

(** ** Further properties: the order of the visits *)

(** X8. Neither loop depends on the order in which the candidates are
    visited: the inner loop over any rearrangement of its indices, and the
    outer loop over any rearrangement of its indices, return the same
    flags. *)
Theorem loops_order_independent (t : list (list Z)) (flags : list bool)
    (p q : list nat) (i : nat)
    (Hpq : p ≡ₚ q) (Hp : Forall (fun k => k < length t) p)
    (Hf : length flags = length t) (Hi : i < length t) :
  (exists flags',
     inner_loop t i p flags = Returned flags' /\
     inner_loop t i q flags = Returned flags') /\
  (exists flags',
     outer_loop t (length t) p flags = Returned flags' /\
     outer_loop t (length t) q flags = Returned flags').
Proof.
  assert (Hq : Forall (fun k => k < length t) q) by (by rewrite <- Hpq).
  split.
  - eexists. split; [apply inner_loop_ok; (done || lia)|].
    rewrite inner_loop_ok by (done || lia). f_equal.
    assert (existsb (fun j => dominates_at t j i) q
            = existsb (fun j => dominates_at t j i) p) as ->; [|done].
    apply eq_true_iff_eq. rewrite !existsb_exists.
    by setoid_rewrite <- list_elem_of_In; setoid_rewrite Hpq.
  - eexists. split; [by apply outer_loop_ok|].
    rewrite outer_loop_ok by done. f_equal.
    apply list_eq. intros k. rewrite !foldl_mark_lookup.
    assert (bool_decide (k ∈ q) = bool_decide (k ∈ p)) as ->; [|done].
    apply bool_decide_ext. by rewrite Hpq.
Qed.

Lemma loops_order_independent_witness :
  outer_loop [[1; 1]; [2; 2]; [0; 3]]%Z 3 [2; 0; 1] (ones 3)
  = outer_loop [[1; 1]; [2; 2]; [0; 3]]%Z 3 [0; 1; 2] (ones 3).
Proof.
  destruct (loops_order_independent [[1; 1]; [2; 2]; [0; 3]]%Z (ones 3)
              [2; 0; 1] [0; 1; 2] 0) as [_ (flags' & Hp & Hq)].
  - change [2; 0; 1] with ([2] ++ [0; 1]).
    change [0; 1; 2] with ([0; 1] ++ [2]). apply Permutation_app_comm.
  - repeat constructor.
  - reflexivity.
  - cbn. lia.
  - cbn [length] in Hp, Hq. by rewrite Hp, Hq.
Defined.

(** ** Further properties: changes of scale, order of the objectives *)

Lemma Dominates_imap (f : nat -> Z -> Z) (a b : list Z) :
  (forall k x y, (x < y)%Z -> (f k x < f k y)%Z) ->
  Dominates (imap f a) (imap f b) <-> Dominates a b.
Proof.
  intros Hf.
  assert (Hle : forall k x y, (f k x <= f k y)%Z <-> (x <= y)%Z).
  { intros k x y. split; intros H.
    - destruct (decide (x <= y)%Z) as [|Hn]; [done|].
      specialize (Hf k y x). lia.
    - destruct (decide (x = y)) as [->|Hn]; [lia|].
      specialize (Hf k x y). lia. }
  assert (Hlt : forall k x y, (f k x < f k y)%Z <-> (x < y)%Z).
  { intros k x y. split; [|by apply Hf]. intros H.
    destruct (decide (x < y)%Z) as [|Hn]; [done|].
    specialize (proj2 (Hle k y x)). lia. }
  unfold Dominates. setoid_rewrite list_lookup_imap. split.
  - intros [Hge (k & u & v & Hu & Hv & Huv)]. split.
    + intros c x y Hx Hy. apply (Hle c). apply (Hge c); by rewrite ?Hx, ?Hy.
    + destruct (a !! k) as [x|] eqn:Ex; [|done].
      destruct (b !! k) as [y|] eqn:Ey; [|done].
      cbn in Hu, Hv. simplify_eq. exists k, x, y.
      repeat split; [done..|]. by apply (Hlt k).
  - intros [Hge (k & x & y & Hx & Hy & Hxy)]. split.
    + intros c u v Hu Hv.
      destruct (a !! c) as [x'|] eqn:Ex; [|done].
      destruct (b !! c) as [y'|] eqn:Ey; [|done].
      cbn in Hu, Hv. simplify_eq. apply Hle. by apply (Hge c).
    + exists k, (f k x), (f k y). rewrite Hx, Hy.
      repeat split; [done..|]. by apply Hlt.
Qed.

(** X9. Replacing the scores of every objective by their images under a
    strictly increasing function (one function per objective) leaves the
    returned indices unchanged. *)
Theorem identify_pareto_rescale (f : nat -> Z -> Z) (t : list (list Z))
    (Hf : forall k x y, (x < y)%Z -> (f k x < f k y)%Z) :
  exists front,
    identify_pareto t = Returned front /\
    identify_pareto (rescale f t) = Returned front.
Proof.
  exists (non_dominated t). split; [apply identify_pareto_non_dominated|].
  rewrite identify_pareto_non_dominated. f_equal.
  unfold non_dominated, rescale. rewrite length_fmap.
  apply list_filter_iff. intros i.
  rewrite <- !not_true_iff_false. apply not_iff_compat.
  rewrite !dominated_spec. setoid_rewrite list_lookup_fmap. split.
  - intros (j & sj & si & Hj & Hi & Hd).
    destruct (t !! j) as [rj|] eqn:Ej; [|done].
    destruct (t !! i) as [ri|] eqn:Ei; [|done].
    cbn in Hj, Hi. simplify_eq. exists j, rj, ri. repeat split; [done..|].
    apply dominates_spec. apply dominates_spec in Hd.
    by apply (Dominates_imap f).
  - intros (j & sj & si & Hj & Hi & Hd).
    exists j, (imap f sj), (imap f si). rewrite Hj, Hi.
    repeat split; [done..|].
    apply dominates_spec. apply dominates_spec in Hd.
    by apply Dominates_imap.
Qed.

Lemma identify_pareto_rescale_witness :
  exists front,
    identify_pareto [[1; 2]; [2; 1]; [0; 0]]%Z = Returned front /\
    identify_pareto (rescale (fun k x => 10 * x + Z.of_nat k)%Z
                       [[1; 2]; [2; 1]; [0; 0]]%Z) = Returned front.
Proof.
  apply (identify_pareto_rescale (fun k x => 10 * x + Z.of_nat k)%Z).
  intros k x y Hxy. lia.
Defined.

(** The entries of a row taken in the order [s], for [s] a permutation
    of the column indices. *)
Lemma cols_lookup (r : list Z) (s : list nat) (c : nat) (x : Z) :
  s ≡ₚ seq 0 (length r) ->
  ((fun k => col k r) <$> s) !! c = Some x <->
  exists k, s !! c = Some k /\ r !! k = Some x.
Proof.
  intros Hs. rewrite list_lookup_fmap. split.
  - destruct (s !! c) as [k|] eqn:Ec; [|done]. cbn. intros [= <-].
    exists k. split; [done|].
    apply list_elem_of_lookup_2 in Ec. rewrite Hs in Ec.
    apply elem_of_seq in Ec.
    destruct (lookup_lt_is_Some_2 r k) as [x Hx]; [lia|].
    unfold col. by rewrite Hx.
  - intros (k & -> & Hk). cbn. unfold col. by rewrite Hk.
Qed.

Lemma Dominates_cols (a b : list Z) (s : list nat) :
  length a = length b -> s ≡ₚ seq 0 (length a) ->
  Dominates ((fun k => col k a) <$> s) ((fun k => col k b) <$> s)
  <-> Dominates a b.
Proof.
  intros Hab Hs.
  assert (Hs' : s ≡ₚ seq 0 (length b)) by (by rewrite <- Hab).
  unfold Dominates. setoid_rewrite (cols_lookup a s); [|done..].
  setoid_rewrite (cols_lookup b s); [|done..]. split.
  - intros [Hge (c & x & y & (k & Hc & Hx) & (k' & Hc' & Hy) & Hxy)].
    simplify_eq. split; [|by exists k, x, y].
    intros k' u v Hu Hv.
    assert (k' ∈ s) as [c' Hk']%list_elem_of_lookup_1.
    { rewrite Hs. apply elem_of_seq. apply lookup_lt_Some in Hu. lia. }
    apply (Hge c'); by exists k'.
  - intros [Hge (k & x & y & Hx & Hy & Hxy)]. split.
    + intros c u v (k1 & Hc1 & Hu) (k2 & Hc2 & Hv). simplify_eq.
      by apply (Hge k1).
    + assert (k ∈ s) as [c Hc]%list_elem_of_lookup_1.
      { rewrite Hs. apply elem_of_seq. apply lookup_lt_Some in Hx. lia. }
      exists c, x, y. split; [by exists k|]. split; [by exists k|done].
Qed.

(** X10. Listing the objectives of a rectangular table in another order
    leaves the returned indices unchanged. *)
Theorem identify_pareto_reorder_objectives (m : nat) (t : list (list Z))
    (s : list nat)
    (Ht : rectangular m t) (Hs : s ≡ₚ seq 0 m) :
  exists front,
    identify_pareto t = Returned front /\
    identify_pareto (take_cols t s) = Returned front.
Proof.
  exists (non_dominated t). split; [apply identify_pareto_non_dominated|].
  rewrite identify_pareto_non_dominated. f_equal.
  unfold non_dominated, take_cols. rewrite length_fmap.
  apply list_filter_iff. intros i.
  rewrite <- !not_true_iff_false. apply not_iff_compat.
  rewrite !dominated_spec. setoid_rewrite list_lookup_fmap.
  assert (Hdom : forall j i rj ri, t !! j = Some rj -> t !! i = Some ri ->
            dominates ((fun k => col k rj) <$> s) ((fun k => col k ri) <$> s)
            = dominates rj ri).
  { intros j' i' rj ri Hj Hi. apply eq_true_iff_eq. rewrite !dominates_spec.
    pose proof (rectangular_lookup m t j' rj Ht Hj) as Hlj.
    pose proof (rectangular_lookup m t i' ri Ht Hi) as Hli.
    apply Dominates_cols; [congruence|by rewrite Hlj]. }
  split.
  - intros (j & sj & si & Hj & Hi & Hd).
    destruct (t !! j) as [rj|] eqn:Ej; [|done].
    destruct (t !! i) as [ri|] eqn:Ei; [|done].
    cbn in Hj, Hi. simplify_eq. exists j, rj, ri. repeat split; [done..|].
    by rewrite <- (Hdom j i).
  - intros (j & sj & si & Hj & Hi & Hd).
    eexists j, _, _. rewrite Hj, Hi. repeat split; [done..|].
    by rewrite (Hdom j i).
Qed.

Lemma identify_pareto_reorder_objectives_witness :
  exists front,
    identify_pareto [[1; 2; 3]; [3; 2; 1]; [1; 1; 1]]%Z = Returned front /\
    identify_pareto (take_cols [[1; 2; 3]; [3; 2; 1]; [1; 1; 1]]%Z [2; 0; 1])
      = Returned front.
Proof.
  apply (identify_pareto_reorder_objectives 3).
  - repeat constructor.
  - change [2; 0; 1] with ([2] ++ [0; 1]).
    change (seq 0 3) with ([0; 1] ++ [2]). apply Permutation_app_comm.
Defined.

(** ** Further properties: special tables *)

Lemma dominates_singleton (x y : Z) :
  dominates [y] [x] = true <-> (x < y)%Z.
Proof.
  unfold dominates, all, any, ge_rows, gt_rows, id. cbn.
  rewrite andb_true_r, orb_false_r, andb_true_iff, Z.geb_le, Z.gtb_lt. lia.
Qed.

Lemma row_of_one (r : list Z) : length r = 1 -> r = [col 0 r].
Proof. destruct r as [|x [|y r]]; by intros. Qed.

(** X11. With a single objective the returned indices are exactly those
    of the candidates that attain the maximum score. *)
Theorem identify_pareto_single_objective (t : list (list Z))
    (Ht : rectangular 1 t) :
  exists front,
    identify_pareto t = Returned front /\
    forall i,
      i ∈ front <->
      exists x, score t i 0 = Some x /\
                forall j y, score t j 0 = Some y -> (y <= x)%Z.
Proof.
  exists (non_dominated t). split; [apply identify_pareto_non_dominated|].
  intros i. rewrite elem_of_non_dominated, <- not_true_iff_false. split.
  - intros [Hi Hnd]. destruct (lookup_lt_is_Some_2 t i Hi) as [ri Hri].
    pose proof (row_of_one ri (rectangular_lookup 1 t i ri Ht Hri)) as Eri.
    exists (col 0 ri). split; [by rewrite (score_lookup t i 0 ri), Eri|].
    intros j y (rj & Hrj & Hy)%score_Some.
    pose proof (row_of_one rj (rectangular_lookup 1 t j rj Ht Hrj)) as Erj.
    destruct (decide (y <= col 0 ri)%Z) as [|Hgt]; [done|].
    destruct Hnd. apply dominated_spec. exists j, rj, ri.
    repeat split; [done..|]. rewrite Erj, Eri. apply dominates_singleton.
    rewrite Erj in Hy. cbn in Hy. simplify_eq. lia.
  - intros (x & (ri & Hri & Hx)%score_Some & Hmax). split.
    { by eapply lookup_lt_Some. }
    intros (j & rj & ri' & Hrj & Hri' & Hd)%dominated_spec. simplify_eq.
    pose proof (row_of_one ri (rectangular_lookup 1 t i ri Ht Hri)) as Eri.
    pose proof (row_of_one rj (rectangular_lookup 1 t j rj Ht Hrj)) as Erj.
    rewrite Erj, Eri in Hd. apply dominates_singleton in Hd.
    rewrite Eri in Hx. cbn in Hx. simplify_eq.
    specialize (Hmax j (col 0 rj)).
    rewrite (score_lookup t j 0 rj Hrj), Erj in Hmax. cbn in Hmax.
    specialize (Hmax eq_refl). lia.
Qed.

Lemma identify_pareto_single_objective_witness :
  exists front,
    identify_pareto [[3]; [7]; [5]; [7]]%Z = Returned front /\
    forall i,
      i ∈ front <->
      exists x, score [[3]; [7]; [5]; [7]]%Z i 0 = Some x /\
                forall j y, score [[3]; [7]; [5]; [7]]%Z j 0 = Some y -> (y <= x)%Z.
Proof.
  apply identify_pareto_single_objective. repeat constructor.
Defined.

Lemma Forall2_ge_strict (a b : list Z) :
  Forall2 (fun x y => y <= x)%Z a b -> a <> b ->
  exists k x y, a !! k = Some x /\ b !! k = Some y /\ (y < x)%Z.
Proof.
  induction 1 as [|x y a b Hxy _ IH]; intros Hne; [done|].
  destruct (decide (x = y)) as [->|Hn].
  - destruct IH as (k & u & v & Hu & Hv & Huv); [congruence|].
    by exists (S k), u, v.
  - exists 0, x, y. repeat split; [done..|lia].
Qed.

(** X12. When one candidate is at least as good as every candidate in
    every objective, the returned indices are exactly those of the
    candidates with the same score vector as it. *)
Theorem identify_pareto_ideal_point (t : list (list Z)) (i : nat)
    (ri : list Z)
    (Hi : t !! i = Some ri)
    (Hbest : forall r, r ∈ t -> Forall2 (fun x y => y <= x)%Z ri r) :
  exists front,
    identify_pareto t = Returned front /\
    forall j, j ∈ front <-> t !! j = Some ri.
Proof.
  exists (non_dominated t). split; [apply identify_pareto_non_dominated|].
  intros j. rewrite elem_of_non_dominated, <- not_true_iff_false. split.
  - intros [Hj Hnd]. destruct (lookup_lt_is_Some_2 t j Hj) as [rj Hrj].
    destruct (decide (ri = rj)) as [->|Hne]; [done|].
    destruct Hnd. apply dominated_spec. exists i, ri, rj.
    repeat split; [done..|]. apply dominates_spec.
    pose proof (Hbest rj (list_elem_of_lookup_2 _ _ _ Hrj)) as Hge.
    split; [|by apply Forall2_ge_strict].
    intros k x y Hx Hy. by eapply (Forall2_lookup_lr _ ri rj k x y Hge).
  - intros Hj. split; [by eapply lookup_lt_Some|].
    intros (c & rc & rj & Hc & Hj' & Hd)%dominated_spec. simplify_eq.
    apply dominates_spec in Hd as [_ (k & x & y & Hx & Hy & Hxy)].
    pose proof (Hbest rc (list_elem_of_lookup_2 _ _ _ Hc)) as Hge.
    pose proof (Forall2_lookup_lr _ ri rc k y x Hge Hy Hx) as Hle.
    cbn beta in Hle. lia.
Qed.

Lemma identify_pareto_ideal_point_witness :
  exists front,
    identify_pareto [[1; 2]; [5; 5]; [5; 1]; [5; 5]]%Z = Returned front /\
    forall j, j ∈ front <-> [[1; 2]; [5; 5]; [5; 1]; [5; 5]]%Z !! j = Some [5; 5]%Z.
Proof.
  apply (identify_pareto_ideal_point [[1; 2]; [5; 5]; [5; 1]; [5; 5]]%Z 1).
  - reflexivity.
  - intros r Hr. repeat (apply elem_of_cons in Hr as [->|Hr]);
      [repeat constructor; lia..|by inversion Hr].
Defined.

End Pareto.
